(** * Hamming (31,26) encoder: a shallow embedding of
      [hamming_encoder_luisa_becker.py] and the properties of its chunker
      and encoder.

    Python values are modelled as follows.
    - [str] is a list of characters.  Characters are code points below 256
      ([ascii]); within that range the only decimal digits are '0'..'9'.
    - [int] is [Z]; list and string indices and lengths are [nat].
    - A list of strings (the [codeword] working array, the list of chunks)
      is a [list str]; item assignment is stdpp's list insert guarded by the
      bounds check Python performs.
    - Exceptions are values of [exn]; a computation that may raise returns a
      [result]. *)

From Stdlib Require Import ZArith List Ascii String Lia ZifyNat Btauto DecimalString.
From stdpp Require Import base list.
Import ListNotations.

Local Open Scope nat_scope.

(* ===================================================================== *)
(** ** Python values, exceptions and loops                                *)
(* ===================================================================== *)

Abbreviation str := (list ascii).

(** A string literal, written ["0101"] in the source. *)
Definition lit (s : string) : str := list_ascii_of_string s.

(** What a [ValueError] of this program reports.  The message text is
    abstracted to the fact it states. *)
Inductive value_error : Type :=
| ChunkLength (got : nat)      (* "Chunk length must be 26 bits, got .. bits." *)
| InvalidLiteral (s : str)     (* "invalid literal for int() with base 10: .." *)
| ZeroStep.                    (* "range() arg 3 must not be zero" *)

(** Why [main] and [read_bits_from_file] leave through [SystemExit]. *)
Inductive exit_reason : Type :=
| NoBinaryDigitInBits
| ErrorReadingFile (path : str)
| NoBinaryDigitInFile (path : str).

Inductive exn : Type :=
| ValueError (why : value_error)
| IndexError
| TypeError
| SystemExit (why : exit_reason).

Inductive result (A : Type) : Type :=
| Ok (a : A)
| Raise (e : exn).
Arguments Ok {A} a.
Arguments Raise {A} e.

(** Sequencing: [x ← r; k] runs [k] on the value of [r] and propagates an
    exception of [r]. *)
Definition bind {A B} (k : A -> result B) (r : result A) : result B :=
  match r with
  | Ok a => k a
  | Raise e => Raise e
  end.

#[global] Instance result_bind : MBind result := @bind.
#[global] Instance result_ret : MRet result := @Ok.

(** [for x in xs: s = body(s, x)], stopping at the first exception. *)
Fixpoint for_each {A S : Type} (xs : list A) (body : S -> A -> result S)
         (s : S) : result S :=
  match xs with
  | [] => Ok s
  | x :: xs' => s' ← body s x; for_each xs' body s'
  end.

(** [range(a, b)]. *)
Definition range (a b : nat) : list nat := seq a (b - a).

(** [range(0, stop, step)] for a stop that is a length: Python raises on a
    zero step, yields nothing for a negative one, and otherwise counts
    [0, step, 2*step, ...] below [stop], that is [(stop + step - 1) // step]
    values. *)
Definition range_step (stop : nat) (step : Z) : result (list nat) :=
  if (step =? 0)%Z then Raise (ValueError ZeroStep)
  else if (step <? 0)%Z then Ok []
  else
    let n := Z.to_nat ((Z.of_nat stop + step - 1) / step) in
    Ok (map (fun k => k * Z.to_nat step) (seq 0 n)).

(** [l[i]] for a non-negative index. *)
Definition getitem {A : Type} (l : list A) (i : nat) : result A :=
  match l !! i with
  | Some x => Ok x
  | None => Raise IndexError
  end.

(** [l[i] = x] for a non-negative index. *)
Definition setitem {A : Type} (l : list A) (i : nat) (x : A)
  : result (list A) :=
  if i <? length l then Ok (<[i := x]> l) else Raise IndexError.

(** [x in l] for a list of integers. *)
Definition contains (l : list nat) (x : nat) : bool := existsb (Nat.eqb x) l.

(* ===================================================================== *)
(** ** [int(s)] and [str(n)]                                              *)
(* ===================================================================== *)

(** Characters [int()] strips from both ends: the ASCII white space
    (tab to carriage return, and the space) and, above 127, the Unicode
    white space (NEL and the no-break space below 256). *)
Definition is_space (c : ascii) : bool :=
  let n := nat_of_ascii c in
  ((9 <=? n) && (n <=? 13)) || (n =? 32) || (n =? 133) || (n =? 160).

Definition digit_value (c : ascii) : option Z :=
  let n := nat_of_ascii c in
  if (48 <=? n) && (n <=? 57) then Some (Z.of_nat (n - 48)) else None.

Fixpoint lstrip (s : str) : str :=
  match s with
  | c :: s' => if is_space c then lstrip s' else s
  | [] => []
  end.

Definition strip (s : str) : str := rev (lstrip (rev (lstrip s))).

(** Digits with single underscores between them. *)
Fixpoint digits (acc : Z) (after_digit : bool) (s : str) : option Z :=
  match s with
  | [] => if after_digit then Some acc else None
  | c :: s' =>
      if Ascii.eqb c "_"%char then
        if after_digit then digits acc false s' else None
      else
        match digit_value c with
        | Some d => digits (10 * acc + d)%Z true s'
        | None => None
        end
  end.

(** [int(s)] in base 10: surrounding white space, an optional sign, then
    digits.  (CPython's limit on the number of digits, 4300 by default, is
    beyond any string this program converts and is not modelled.) *)
Definition py_int (s : str) : result Z :=
  let body := strip s in
  let parsed :=
    match body with
    | c :: s' =>
        if Ascii.eqb c "-"%char then Z.opp <$> digits 0 false s'
        else if Ascii.eqb c "+"%char then digits 0 false s'
        else digits 0 false body
    | [] => None
    end in
  match parsed with
  | Some z => Ok z
  | None => Raise (ValueError (InvalidLiteral s))
  end.

(** [str(n)] for an integer. *)
Definition py_str (n : Z) : str := lit (NilZero.string_of_int (Z.to_int n)).

(* ===================================================================== *)
(** ** The program                                                        *)
(* ===================================================================== *)

(** [''.join(c for c in content if c in '01')]. *)
Definition is_bit (c : ascii) : bool :=
  Ascii.eqb c "0"%char || Ascii.eqb c "1"%char.

Definition filter_bits (content : str) : str := List.filter is_bit content.

Definition chunk_body (bits : str) (chunk_size : Z)
           (chunks : list str) (i : nat) : result (list str) :=
  let size := Z.to_nat chunk_size in
  let chunk := take size (drop i bits) in
  let chunk :=
    if (Z.of_nat (length chunk) <? chunk_size)%Z
    then chunk ++ replicate (size - length chunk) "0"%char
    else chunk in
  Ok (chunks ++ [chunk]).

Definition chunk_bits (bits : str) (chunk_size : Z) : result (list str) :=
  idxs ← range_step (length bits) chunk_size;
  for_each idxs (chunk_body bits chunk_size) [].

Definition parity_positions : list nat := [1; 2; 4; 8; 16].

(** Body of the placement loop; the state is [(codeword, data_index)]. *)
Definition place_body (chunk : str) (st : list str * nat) (pos : nat)
  : result (list str * nat) :=
  let '(codeword, data_index) := st in
  if negb (contains parity_positions pos) then
    c ← getitem chunk data_index;
    codeword ← setitem codeword (pos - 1) [c];
    Ok (codeword, data_index + 1)
  else Ok (codeword, data_index).

(** Body of the inner parity loop for parity position [p]. *)
Definition xor_body (codeword : list str) (p : nat) (parity : Z) (pos : nat)
  : result Z :=
  if negb (Nat.land pos p =? 0) then
    s ← getitem codeword (pos - 1);
    v ← py_int s;
    Ok (Z.lxor parity v)
  else Ok parity.

(** Body of the outer parity loop. *)
Definition parity_body (codeword : list str) (p : nat)
  : result (list str) :=
  parity ← for_each (range 1 32) (xor_body codeword p) 0%Z;
  setitem codeword (p - 1) (py_str parity).

Definition encode_hamming_31_26 (chunk : str) : result str :=
  if negb (length chunk =? 26) then
    Raise (ValueError (ChunkLength (length chunk)))
  else
    let codeword := replicate 31 (lit "0") in
    st ← for_each (range 1 32) (place_body chunk) (codeword, 0);
    codeword ← for_each parity_positions parity_body (fst st);
    Ok (concat codeword).

(** [[f(x) for x in xs]]. *)
Fixpoint comprehension {A B : Type} (f : A -> result B) (xs : list A)
  : result (list B) :=
  match xs with
  | [] => Ok []
  | x :: xs' => y ← f x; ys ← comprehension f xs'; Ok (y :: ys)
  end.

(** The command line after [parse_args]: [--bits] and [--file] are
    mutually exclusive and one of them is required. *)
Record args : Type := Args {
  arg_bits : option str;
  arg_file : option str;
  arg_out : option str
}.

(** What [main] has computed when it reaches its output stage. *)
Record summary : Type := Summary {
  original_length : nat;
  chunk_count : nat;
  padding : nat;
  codewords : list str
}.

(** [not s] for a string. *)
Definition is_empty (s : str) : bool :=
  match s with
  | [] => true
  | _ :: _ => false
  end.

(** The padding [main] reports ([padding = 0], then the [if] that
    follows). *)
Definition padding_added (bits : str) : nat :=
  let padding := 0 in
  if negb (length bits mod 26 =? 0) then 26 - length bits mod 26
  else padding.

Section Main.

(**  The file system as [open(path).read()] sees it: the content of the
    file, or [None] where opening or reading raises [OSError]. *)
Variable read_file : str -> option str.

Definition read_bits_from_file (path : option str) : result str :=
  match path with
  | None => Raise TypeError            (* open(None) *)
  | Some p =>
      match read_file p with
      | None => Raise (SystemExit (ErrorReadingFile p))
      | Some content => Ok (filter_bits content)
      end
  end.

(** [main] up to its output stage (writing or printing the lines is not
    modelled). *)
Definition main (a : args) : result summary :=
  bits ←
    match arg_bits a with
    | Some (c :: s) =>                       (* if args.bits: *)
        let bits := filter_bits (c :: s) in
        if is_empty bits then Raise (SystemExit NoBinaryDigitInBits)
        else Ok bits
    | _ =>
        bits ← read_bits_from_file (arg_file a);
        if is_empty bits then
          Raise (SystemExit (NoBinaryDigitInFile (default [] (arg_file a))))
        else Ok bits
    end;
  chunks ← chunk_bits bits 26;
  codewords ← comprehension encode_hamming_31_26 chunks;
  let padding := padding_added bits in
  Ok (Summary (length bits) (length chunks) padding codewords).

End Main.

(** What [main] leaves behind when it returns: the lines it prints, in
    order, and the file it writes, as its path and content. *)
Record output : Type := Output {
  printed : list str;
  written : option (str * str)
}.

(** How a run of [main] ends: with its output, with an exception of the
    input and encoding stages, or with the exit on an output file that
    cannot be written. *)
Inductive outcome : Type :=
| Done (o : output)
| Failed (e : exn)
| ErrorWritingFile (path : str).

Definition newline : ascii := "010"%char.

(** [summary_lines] of [main]; the numbers are formatted by [str]. *)
Definition summary_lines (s : summary) : list str :=
  [ lit "Original length: " ++ py_str (Z.of_nat (original_length s))
    ++ lit " bits";
    lit "Chunks (26 bits each): " ++ py_str (Z.of_nat (chunk_count s));
    lit "Padding added to last chunk: " ++ py_str (Z.of_nat (padding s))
    ++ lit " bits" ].

Section Output.

Variable read_file : str -> option str.

(**  Whether [open(path, 'w')] and the writes that follow go through
    without [OSError]. *)
Variable can_write : str -> bool.

(** The output stage of [main]: with a non-empty [--out] the codewords go
    to the file, one per line, and the summary is printed; otherwise the
    summary and the codewords are printed. *)
Definition main_output (a : args) (s : summary) : outcome :=
  match arg_out a with
  | Some (c :: path) =>                      (* if args.out: *)
      if can_write (c :: path) then
        Done (Output
                (summary_lines s
                 ++ [lit "Codewords written to " ++ (c :: path)])
                (Some (c :: path,
                       concat (map (fun cw => cw ++ [newline])
                                   (codewords s)))))
      else ErrorWritingFile (c :: path)
  | _ =>
      Done (Output (summary_lines s ++ [lit "Codewords:"] ++ codewords s)
                   None)
  end.

(** [main], with its output stage. *)
Definition main_run (a : args) : outcome :=
  match main read_file a with
  | Ok s => main_output a s
  | Raise e => Failed e
  end.

End Output.

(* ===================================================================== *)
(** ** Vocabulary of the properties                                       *)
(* ===================================================================== *)

(** *** Chunks *)

(** The window of [n] characters that starts at offset [i], filled with
    '0' on the right up to [n] characters. *)
Definition window (n : nat) (bits : str) (i : nat) : str :=
  take n (drop i bits) ++ replicate (n - length (take n (drop i bits))) "0"%char.

Definition windows (n : nat) (bits : str) (count : nat) : list str :=
  map (fun k => window n bits (k * n)) (seq 0 count).

(** [ceil(L / n)], as [range] counts it. *)
Definition ceil_div (L n : nat) : nat := (L + n - 1) / n.

(** A string of '0' and '1' characters. *)
Definition binary (s : str) : Prop :=
  Forall (fun c => c = "0"%char \/ c = "1"%char) s.

(** *** The encoder seen on bits *)

(** The character of a bit, a string of bits, and the working array whose
    cells are one-character strings of bits. *)
Definition bit_char (b : bool) : ascii := if b then "1"%char else "0"%char.
Definition bits_str (bs : list bool) : str := map bit_char bs.
Definition cells (bs : list bool) : list str := map (fun b => [bit_char b]) bs.

(** The XOR the inner parity loop accumulates, on bits. *)
Definition xor_group (bs : list bool) (p : nat) (ps : list nat) (acc : bool)
  : bool :=
  fold_left
    (fun acc pos =>
       if negb (Nat.land pos p =? 0) then xorb acc (nth (pos - 1) bs false)
       else acc)
    ps acc.

(** The outer parity loop, on bits. *)
Definition parity_bits (ps : list nat) (bs : list bool) : list bool :=
  fold_left
    (fun bs p => <[p - 1 := xor_group bs p (range 1 32) false]> bs) ps bs.

(** Index of the data bit that the placement loop puts at [pos]. *)
Definition data_index (pos : nat) : nat :=
  length (List.filter (fun q => negb (contains parity_positions q)) (range 1 pos)).

(** The array after the placement loop, on bits. *)
Definition layout (bs : list bool) : list bool :=
  map (fun pos => if contains parity_positions pos then false
                  else nth (data_index pos) bs false)
      (range 1 32).

Definition hamming (bs : list bool) : list bool :=
  parity_bits parity_positions (layout bs).

(** *** Reading a codeword *)

(** The bit a character of a codeword stands for. *)
Definition bit_of (c : ascii) : option bool :=
  if Ascii.eqb c "0"%char then Some false
  else if Ascii.eqb c "1"%char then Some true
  else None.

(** The bit at position [pos] (positions count from 1). *)
Definition codeword_bit (cw : str) (pos : nat) : option bool :=
  cw !! (pos - 1) ≫= bit_of.

(** The positions of 1..31 that the parity bit at [p] covers, [p]
    included. *)
Definition parity_group (p : nat) : list nat :=
  List.filter (fun pos => negb (Nat.land pos p =? 0)) (range 1 32).

Definition xor_bits (l : list (option bool)) : option bool :=
  foldr (fun ob acc => b ← ob; a ← acc; Some (xorb b a)) (Some false) l.

(** XOR of the bits of [cw] over the parity group of [p]; [None] when a
    position of the group is missing or does not hold a bit. *)
Definition group_xor (cw : str) (p : nat) : option bool :=
  xor_bits (map (codeword_bit cw) (parity_group p)).

(** The positions that are not parity positions, in ascending order. *)
Definition data_positions : list nat :=
  List.filter (fun pos => negb (contains parity_positions pos)) (range 1 32).

(** The characters of [cw] at the data positions, in ascending order. *)
Definition extract_data (cw : str) : option str :=
  mapM (fun pos => cw !! (pos - 1)) data_positions.

(** *** The encoder on arbitrary characters *)

(** The array after the placement loop. *)
Definition layout_cells (chunk : str) : list str :=
  map (fun pos => if contains parity_positions pos then lit "0"
                  else [nth (data_index pos) chunk "0"%char])
      (range 1 32).

(** The cells the inner parity loop for [p] converts, over the positions
    [ps]. *)
Definition cells_read (cw : list str) (p : nat) (ps : list nat) : list str :=
  omap (fun pos => cw !! (pos - 1))
       (List.filter (fun pos => negb (Nat.land pos p =? 0)) ps).

(** *** Codewords as a code *)

(** XOR of two bit characters, and of two strings of bits, position by
    position. *)
Definition xor_char (c d : ascii) : ascii :=
  if Ascii.eqb c d then "0"%char else "1"%char.

Definition xor_str (s t : str) : str := zip_with xor_char s t.

(** The string with the bit at position [pos] inverted. *)
Definition flip_char (c : ascii) : ascii :=
  if Ascii.eqb c "0"%char then "1"%char else "0"%char.

Definition flip_at (s : str) (pos : nat) : str := alter flip_char (pos - 1) s.

(** The sum of the parity positions whose group has odd parity. *)
Definition syndrome (cw : str) : option nat :=
  foldr (fun p acc => b ← group_xor cw p; n ← acc;
                      Some (if b : bool then p + n else n))
        (Some 0) parity_positions.

(** The number of positions at which two strings differ. *)
Definition distance (s t : str) : nat :=
  length (List.filter (fun cd => negb (Ascii.eqb cd.1 cd.2)) (zip s t)).

(** The number of bits set, and the lists of [n] bits with [k] bits set. *)
Definition weight (l : list bool) : nat :=
  foldr (fun b n => Nat.b2n b + n) 0 l.

Fixpoint words (n k : nat) : list (list bool) :=
  match n with
  | 0 => match k with 0 => [[]] | S _ => [] end
  | S n' =>
      map (cons false) (words n' k)
      ++ match k with
         | 0 => []
         | S k' => map (cons true) (words n' k')
         end
  end.

(** XOR of the bits of a list over the parity group of [p]. *)
Definition group_parity (hs : list bool) (p : nat) : option bool :=
  xor_bits (map (fun pos => hs !! (pos - 1)) (parity_group p)).

(** *** Runs of [main] *)

(** The bit string [main] works on: the binary digits of [--bits] when it
    is given and not empty, and otherwise those of the file. *)
Definition effective_bits (read_file : str -> option str) (a : args)
  : option str :=
  match arg_bits a with
  | Some (c :: s) => Some (filter_bits (c :: s))
  | _ =>
      match arg_file a with
      | Some path => filter_bits <$> read_file path
      | None => None
      end
  end.

(** The lines of a text in which every line ends with a newline. *)
Fixpoint split_lines (s : str) : list str :=
  match s with
  | [] => []
  | c :: s' =>
      if Ascii.eqb c newline then [] :: split_lines s'
      else match split_lines s' with
           | [] => [[c]]
           | l :: ls => (c :: l) :: ls
           end
  end.

(** The decimal digits, as a test on characters. *)
Definition is_digit (c : ascii) : bool :=
  existsb (Ascii.eqb c) (lit "0123456789").

(* ===================================================================== *)
(** ** Loops and sequencing                                               *)
(* ===================================================================== *)

Ltac Zify.zify_post_hook ::= Z.to_euclidean_division_equations.

Lemma bind_Ok {A B} (k : A -> result B) (a : A) : (Ok a ≫= k) = k a.
Proof. reflexivity. Qed.

Lemma bind_Raise {A B} (k : A -> result B) (e : exn) :
  (Raise e ≫= k) = Raise e.
Proof. reflexivity. Qed.

Lemma for_each_cons {A S} (x : A) (xs : list A) (body : S -> A -> result S) s :
  for_each (x :: xs) body s = body s x ≫= for_each xs body.
Proof. reflexivity. Qed.

Lemma for_each_app {A S} (xs ys : list A) (body : S -> A -> result S) s :
  for_each (xs ++ ys) body s = for_each xs body s ≫= for_each ys body.
Proof.
  revert s; induction xs as [|x xs IH]; intros s; simpl; [reflexivity|].
  destruct (body s x); simpl; [apply IH | reflexivity].
Qed.

Lemma for_each_ext {A S} (xs : list A) (f g : S -> A -> result S) s :
  (forall s x, f s x = g s x) -> for_each xs f s = for_each xs g s.
Proof.
  intros Hfg; revert s; induction xs as [|x xs IH]; intros s; simpl;
    [reflexivity|].
  rewrite Hfg. destruct (g s x); simpl; [apply IH | reflexivity].
Qed.

(** A loop whose body only appends [f x] to a list builds [map f xs]. *)
Lemma for_each_append {A B} (f : A -> B) (xs : list A) (acc : list B) :
  for_each xs (fun acc x => Ok (acc ++ [f x])) acc = Ok (acc ++ map f xs).
Proof.
  revert acc; induction xs as [|x xs IH]; intros acc; simpl.
  - by rewrite app_nil_r.
  - change (for_each xs (fun acc x => Ok (acc ++ [f x])) (acc ++ [f x])
            = Ok (acc ++ f x :: map f xs)).
    rewrite IH, <- app_assoc. reflexivity.
Qed.

(* ===================================================================== *)
(** ** The chunker                                                        *)
(* ===================================================================== *)

Lemma chunk_body_window bits cs chunks i :
  chunk_body bits cs chunks i = Ok (chunks ++ [window (Z.to_nat cs) bits i]).
Proof.
  unfold chunk_body, window.
  destruct (Z.ltb_spec (Z.of_nat (length (take (Z.to_nat cs) (drop i bits)))) cs)
    as [Hlt|Hge]; [reflexivity|].
  replace (Z.to_nat cs - _) with 0 by lia.
  simpl. by rewrite app_nil_r.
Qed.

Lemma chunk_bits_windows bits cs :
  (0 < cs)%Z ->
  chunk_bits bits cs
  = Ok (windows (Z.to_nat cs) bits
          (Z.to_nat ((Z.of_nat (length bits) + cs - 1) / cs))).
Proof.
  intros Hcs. unfold chunk_bits, range_step.
  destruct (Z.eqb_spec cs 0) as [->|_]; [lia|].
  destruct (Z.ltb_spec cs 0) as [?|_]; [lia|].
  rewrite bind_Ok.
  erewrite (for_each_ext _ _ (fun acc i => Ok (acc ++ [window (Z.to_nat cs) bits i]))).
  - rewrite for_each_append. simpl. unfold windows. by rewrite map_map.
  - intros; apply chunk_body_window.
Qed.

Section Windows.

Variable n : nat.
Hypothesis n_pos : 0 < n.

Lemma ceil_div_small L : 0 < L <= n -> ceil_div L n = 1.
Proof.
  intros H. unfold ceil_div. symmetry.
  apply Nat.div_unique with (r := L - 1); lia.
Qed.

Lemma ceil_div_zero L : ceil_div L n = 0 -> L = 0.
Proof.
  unfold ceil_div. intros H.
  pose proof (Nat.div_mod_eq (L + n - 1) n) as E.
  pose proof (Nat.mod_upper_bound (L + n - 1) n) as U.
  rewrite H in E. lia.
Qed.

Lemma ceil_div_step L : n < L -> ceil_div L n = S (ceil_div (L - n) n).
Proof.
  intros H. unfold ceil_div.
  replace (L + n - 1) with ((L - n + n - 1) + 1 * n) by lia.
  rewrite Nat.div_add by lia. lia.
Qed.

Lemma ceil_div_bounds L : 0 < L -> n * (ceil_div L n - 1) < L <= n * ceil_div L n.
Proof.
  intros H. unfold ceil_div.
  pose proof (Nat.div_mod_eq (L + n - 1) n) as E.
  pose proof (Nat.mod_upper_bound (L + n - 1) n) as U.
  nia.
Qed.

Lemma length_window bits i : length (window n bits i) = n.
Proof.
  unfold window. rewrite length_app, length_replicate, length_take. lia.
Qed.

Lemma windows_S bits c :
  windows n bits (S c) = window n bits 0 :: windows n (drop n bits) c.
Proof.
  unfold windows. simpl seq. rewrite <- seq_shift, map_cons, map_map.
  f_equal. apply map_ext; intros k. unfold window.
  rewrite drop_drop. reflexivity.
Qed.

Lemma concat_windows c : forall bits,
  c = ceil_div (length bits) n ->
  concat (windows n bits c)
  = bits ++ replicate ((n - length bits mod n) mod n) "0"%char.
Proof.
  induction c as [|c IH]; intros bits Hc.
  - assert (length bits = 0) as H0 by (by apply ceil_div_zero).
    destruct bits; [|discriminate]. simpl.
    rewrite Nat.Div0.mod_0_l, Nat.sub_0_r, Nat.Div0.mod_same. reflexivity.
  - rewrite windows_S. simpl concat.
    destruct (Nat.le_gt_cases (length bits) n) as [Hle|Hgt].
    + assert (0 < length bits).
      { destruct bits; simpl; [|lia]. unfold ceil_div in Hc; simpl in Hc.
        rewrite Nat.div_small in Hc by lia. discriminate. }
      rewrite ceil_div_small in Hc by lia. assert (c = 0) as -> by lia.
      unfold windows, window. simpl. rewrite app_nil_r.
      change (drop 0 bits) with bits. rewrite take_ge by lia. f_equal. f_equal.
      destruct (Nat.eq_dec (length bits) n) as [->|Hne].
      * rewrite Nat.Div0.mod_same, Nat.sub_0_r, Nat.Div0.mod_same. lia.
      * rewrite (Nat.mod_small (length bits)) by lia.
        rewrite Nat.mod_small by lia. reflexivity.
    + rewrite ceil_div_step in Hc by lia. apply Nat.succ_inj in Hc.
      rewrite (IH (drop n bits)) by (rewrite length_drop; exact Hc).
      unfold window. change (drop 0 bits) with bits. rewrite length_take.
      replace (n - n `min` length bits) with 0 by lia. simpl replicate.
      rewrite app_nil_r, app_assoc, take_drop, length_drop.
      f_equal. f_equal. f_equal. f_equal.
      replace (length bits) with ((length bits - n) + 1 * n) at 2 by lia.
      rewrite Nat.Div0.mod_add. reflexivity.
Qed.

End Windows.

Lemma windows_lookup n bits c k :
  k < c -> windows n bits c !! k = Some (window n bits (k * n)).
Proof.
  intros Hk. unfold windows.
  rewrite list_lookup_fmap, lookup_seq_lt by lia. reflexivity.
Qed.

Lemma length_windows n bits c : length (windows n bits c) = c.
Proof. unfold windows. by rewrite length_map, length_seq. Qed.

(** With the chunk size [main] passes, the chunker returns the windows at
    offsets 0, 26, 52, ... *)
Lemma chunk_bits_26 bits :
  chunk_bits bits 26 = Ok (windows 26 bits (ceil_div (length bits) 26)).
Proof.
  rewrite chunk_bits_windows by lia. do 2 f_equal.
  unfold ceil_div. lia.
Qed.

Lemma padding_added_eq bits :
  padding_added bits = (26 - length bits mod 26) mod 26.
Proof.
  unfold padding_added.
  destruct (Nat.eqb_spec (length bits mod 26) 0) as [E|E]; cbn [negb]; lia.
Qed.

Lemma padding_added_fill bits :
  padding_added bits = 26 * ceil_div (length bits) 26 - length bits.
Proof. rewrite padding_added_eq. unfold ceil_div. lia. Qed.

(** A window that ends inside the input is a plain slice. *)
Lemma window_inner n bits i :
  i + n <= length bits -> window n bits i = take n (drop i bits).
Proof.
  intros H. unfold window. rewrite length_take, length_drop.
  replace (n - n `min` (length bits - i)) with 0 by lia.
  simpl. by rewrite app_nil_r.
Qed.

(** A window that reaches the end of the input is the rest of the input
    followed by the fill. *)
Lemma window_tail n bits i :
  i <= length bits <= i + n ->
  window n bits i = drop i bits ++ replicate (i + n - length bits) "0"%char.
Proof.
  intros H. unfold window.
  rewrite take_ge by (rewrite length_drop; lia).
  rewrite length_drop. do 2 f_equal. lia.
Qed.

Lemma ceil_div_26_bounds (bits : str) :
  bits <> [] ->
  26 * (ceil_div (length bits) 26 - 1) < length bits
  <= 26 * ceil_div (length bits) 26.
Proof.
  intros Hne. apply ceil_div_bounds; [lia|].
  destruct bits; [done|simpl; lia].
Qed.

Lemma last_window (bits : str) :
  bits <> [] ->
  last (windows 26 bits (ceil_div (length bits) 26))
  = Some (drop (26 * (ceil_div (length bits) 26 - 1)) bits
          ++ replicate (padding_added bits) "0"%char).
Proof.
  intros Hne. pose proof (ceil_div_26_bounds bits Hne) as B.
  rewrite last_lookup, length_windows, windows_lookup by lia.
  rewrite window_tail by lia. rewrite padding_added_fill.
  do 3 f_equal; lia.
Qed.

Lemma inner_window (bits : str) k :
  k + 1 < ceil_div (length bits) 26 ->
  windows 26 bits (ceil_div (length bits) 26) !! k
  = Some (take 26 (drop (26 * k) bits)).
Proof.
  intros Hk.
  assert (bits <> []) as Hne by (intros ->; vm_compute in Hk; lia).
  pose proof (ceil_div_26_bounds bits Hne) as B.
  rewrite windows_lookup, window_inner by lia.
  do 3 f_equal; lia.
Qed.

(** C4: for a non-empty bit string of length L the chunker returns
    ceil(L/26) chunks, and the padding, the number of '0' characters that
    end the last chunk and the figure [main] reports, is
    (26 - L mod 26) mod 26: none when 26 divides L (two chunks and no
    padding for L = 52), and 26 - L mod 26 otherwise. *)
Theorem chunk_bits_count_and_padding (bits : str) :
  bits <> [] ->
  exists chunks,
    chunk_bits bits 26 = Ok chunks /\
    length chunks = ceil_div (length bits) 26 /\
    26 * (length chunks - 1) < length bits <= 26 * length chunks /\
    padding_added bits = (26 - length bits mod 26) mod 26 /\
    (length bits mod 26 = 0 -> padding_added bits = 0) /\
    (length bits mod 26 <> 0 -> padding_added bits = 26 - length bits mod 26) /\
    (length bits = 52 -> length chunks = 2 /\ padding_added bits = 0) /\
    last chunks
    = Some (drop (26 * (length chunks - 1)) bits
            ++ replicate (padding_added bits) "0"%char).
Proof.
  intros Hne. eexists. split; [apply chunk_bits_26|].
  rewrite length_windows.
  pose proof (ceil_div_26_bounds bits Hne) as B.
  pose proof (padding_added_eq bits) as P.
  split; [reflexivity|]. split; [exact B|]. split; [exact P|].
  split; [lia|]. split; [lia|]. split; [|by apply last_window].
  intros H52. split; [|lia]. unfold ceil_div. rewrite H52. reflexivity.
Qed.

Lemma chunk_bits_count_and_padding_witness :
  exists chunks,
    chunk_bits (lit "101") 26 = Ok chunks /\
    length chunks = 1 /\ padding_added (lit "101") = 23.
Proof.
  destruct (chunk_bits_count_and_padding (lit "101")) as (chunks & E & L & _ & P & _).
  - discriminate.
  - exists chunks. split; [exact E|]. split; [exact L | exact P].
Defined.

(** C5: the chunks of a non-empty bit string, joined in order, are the bit
    string followed by the padding; every chunk but the last is a slice of
    the input, and the last is the rest of the input with the padding, all
    '0', on its right. *)
Theorem chunk_bits_concat (bits : str) :
  bits <> [] ->
  exists chunks,
    chunk_bits bits 26 = Ok chunks /\
    concat chunks = bits ++ replicate (padding_added bits) "0"%char /\
    (forall k, k + 1 < length chunks ->
               chunks !! k = Some (take 26 (drop (26 * k) bits))) /\
    last chunks
    = Some (drop (26 * (length chunks - 1)) bits
            ++ replicate (padding_added bits) "0"%char).
Proof.
  intros Hne. eexists. split; [apply chunk_bits_26|].
  rewrite length_windows. split; [|split].
  - rewrite (concat_windows 26) by (lia || reflexivity).
    by rewrite padding_added_eq.
  - intros k Hk. by apply inner_window.
  - by apply last_window.
Qed.

Lemma chunk_bits_concat_witness :
  exists chunks,
    chunk_bits (lit "101") 26 = Ok chunks /\
    concat chunks = lit "10100000000000000000000000".
Proof.
  destruct (chunk_bits_concat (lit "101")) as (chunks & E & C & _).
  - discriminate.
  - exists chunks. split; [exact E | exact C].
Defined.

(** C9: the chunker returns for every string; for the empty string it
    returns the empty list.  Empty input is turned away by [main]: with no
    binary digit in [--bits] or in the file it exits, and whenever it gets
    as far as a summary the bit string was not empty. *)
Theorem chunk_bits_total :
  (forall bits : str, exists chunks, chunk_bits bits 26 = Ok chunks) /\
  chunk_bits [] 26 = Ok [] /\
  (forall read_file a c s,
     arg_bits a = Some (c :: s) -> filter_bits (c :: s) = [] ->
     main read_file a = Raise (SystemExit NoBinaryDigitInBits)) /\
  (forall read_file a path content,
     arg_bits a = None -> arg_file a = Some path ->
     read_file path = Some content -> filter_bits content = [] ->
     main read_file a = Raise (SystemExit (NoBinaryDigitInFile path))) /\
  (forall read_file a r,
     main read_file a = Ok r -> 0 < original_length r).
Proof.
  split; [|split; [|split; [|split]]].
  - intros bits. eexists. apply chunk_bits_26.
  - reflexivity.
  - intros read_file a c s Hb Hf. unfold main. rewrite Hb, Hf. reflexivity.
  - intros read_file a path content Hb Hp Hr Hf.
    unfold main, read_bits_from_file. rewrite Hb, Hp, Hr, Hf. reflexivity.
  - intros read_file a r. unfold main.
    set (input := match arg_bits a with Some (c :: s) => _ | _ => _ end).
    assert (forall bits, input = Ok bits -> 0 < length bits) as Hin.
    { subst input. intros bits.
      destruct (arg_bits a) as [[|c s]|].
      - destruct (read_bits_from_file read_file (arg_file a)) as [[|b bs]|];
          simpl; intros [= <-]; simpl; lia.
      - destruct (filter_bits (c :: s)) as [|b bs];
          simpl; intros [= <-]; simpl; lia.
      - destruct (read_bits_from_file read_file (arg_file a)) as [[|b bs]|];
          simpl; intros [= <-]; simpl; lia. }
    destruct input as [bits|e]; [|discriminate].
    specialize (Hin bits eq_refl). rewrite bind_Ok.
    destruct (chunk_bits bits 26) as [chunks|]; [|discriminate].
    rewrite bind_Ok.
    destruct (comprehension encode_hamming_31_26 chunks); [|discriminate].
    rewrite bind_Ok. intros [= <-]. exact Hin.
Qed.

(* ===================================================================== *)
(** ** The encoder on blocks of bits                                      *)
(* ===================================================================== *)

Lemma binary_bits_str (s : str) :
  binary s -> exists bs, s = bits_str bs /\ length bs = length s.
Proof.
  induction 1 as [|c s Hc _ (bs & -> & Hlen)].
  - by exists [].
  - destruct Hc as [-> | ->].
    + exists (false :: bs). simpl. by rewrite Hlen.
    + exists (true :: bs). simpl. by rewrite Hlen.
Qed.

Lemma bits_str_binary bs : binary (bits_str bs).
Proof.
  induction bs as [|b bs IH]; constructor; [|exact IH].
  destruct b; [by right | by left].
Qed.

Lemma py_int_bit b : py_int [bit_char b] = Ok (Z.b2z b).
Proof. by destruct b. Qed.

Lemma py_str_bit b : py_str (Z.b2z b) = [bit_char b].
Proof. by destruct b. Qed.

Lemma lxor_b2z a b : Z.lxor (Z.b2z a) (Z.b2z b) = Z.b2z (xorb a b).
Proof. by destruct a, b. Qed.

Lemma getitem_cells bs i :
  i < length bs -> getitem (cells bs) i = Ok [bit_char (nth i bs false)].
Proof.
  intros Hi. unfold getitem, cells. rewrite list_lookup_fmap.
  destruct (lookup_lt_is_Some_2 bs i Hi) as [b Hb]. rewrite Hb. simpl.
  by rewrite (nth_lookup_Some _ _ _ _ Hb).
Qed.

Lemma setitem_cells bs i b :
  i < length bs ->
  setitem (cells bs) i (py_str (Z.b2z b)) = Ok (cells (<[i := b]> bs)).
Proof.
  intros Hi. unfold setitem, cells. rewrite length_map.
  destruct (Nat.ltb_spec i (length bs)); [|lia].
  by rewrite py_str_bit, list_fmap_insert.
Qed.

Lemma xor_body_bits bs p acc pos :
  pos - 1 < length bs ->
  xor_body (cells bs) p (Z.b2z acc) pos
  = Ok (Z.b2z (if negb (Nat.land pos p =? 0)
               then xorb acc (nth (pos - 1) bs false) else acc)).
Proof.
  intros Hpos. unfold xor_body. destruct (negb (Nat.land pos p =? 0)).
  - rewrite getitem_cells by exact Hpos.
    by rewrite bind_Ok, py_int_bit, !bind_Ok, lxor_b2z.
  - reflexivity.
Qed.

(** The inner parity loop over an array of bit cells. *)
Lemma xor_loop_bits bs p ps : forall acc,
  Forall (fun pos => pos - 1 < length bs) ps ->
  for_each ps (xor_body (cells bs) p) (Z.b2z acc)
  = Ok (Z.b2z (xor_group bs p ps acc)).
Proof.
  induction ps as [|pos ps IH]; intros acc Hps; [reflexivity|].
  inversion Hps as [|? ? Hpos Hps']; subst.
  rewrite for_each_cons, xor_body_bits, bind_Ok by exact Hpos.
  by apply IH.
Qed.

Lemma parity_body_bits bs p :
  length bs = 31 -> p - 1 < 31 ->
  parity_body (cells bs) p
  = Ok (cells (<[p - 1 := xor_group bs p (range 1 32) false]> bs)).
Proof.
  intros Hlen Hp. unfold parity_body. change 0%Z with (Z.b2z false).
  rewrite (xor_loop_bits bs p (range 1 32) false).
  - rewrite bind_Ok. apply setitem_cells. lia.
  - rewrite Hlen. apply Forall_forall. intros pos Hin.
    unfold range in Hin. apply elem_of_seq in Hin. lia.
Qed.

Lemma parity_bits_cons p ps bs :
  parity_bits (p :: ps) bs
  = parity_bits ps (<[p - 1 := xor_group bs p (range 1 32) false]> bs).
Proof. reflexivity. Qed.

Lemma length_parity_bits ps : forall bs,
  length (parity_bits ps bs) = length bs.
Proof.
  induction ps as [|p ps IH]; intros bs; [reflexivity|].
  by rewrite parity_bits_cons, IH, length_insert.
Qed.

Lemma parity_loop_bits ps : forall bs,
  length bs = 31 -> Forall (fun p => p - 1 < 31) ps ->
  for_each ps parity_body (cells bs) = Ok (cells (parity_bits ps bs)).
Proof.
  induction ps as [|p ps IH]; intros bs Hlen Hps; [reflexivity|].
  inversion Hps as [|? ? Hp Hps']; subst.
  rewrite for_each_cons, parity_body_bits, bind_Ok by assumption.
  rewrite parity_bits_cons.
  apply IH; [by rewrite length_insert | assumption].
Qed.

(** Write a list whose length [H] gives by its elements. *)
Ltac destruct_list l H :=
  repeat (let b := fresh "b" in destruct l as [|b l]; [discriminate H|]);
  destruct l; [|discriminate H].

(** The placement loop on a block of 26 bits. *)
Lemma place_bits bs :
  length bs = 26 ->
  for_each (range 1 32) (place_body (bits_str bs)) (replicate 31 (lit "0"), 0)
  = Ok (cells (layout bs), 26).
Proof.
  intros Hlen. destruct_list bs Hlen. reflexivity.
Qed.

Lemma length_layout bs : length (layout bs) = 31.
Proof. unfold layout. by rewrite length_map. Qed.

Lemma concat_cells bs : concat (cells bs) = bits_str bs.
Proof. induction bs as [|b bs IH]; simpl; [reflexivity | by rewrite IH]. Qed.

(** On a block of 26 bits the encoder returns the bits of [hamming]. *)
Lemma encode_bits bs :
  length bs = 26 ->
  encode_hamming_31_26 (bits_str bs) = Ok (bits_str (hamming bs)).
Proof.
  intros Hlen. unfold encode_hamming_31_26, bits_str at 1.
  rewrite length_map, Hlen. cbn [Nat.eqb negb].
  fold (bits_str bs). rewrite place_bits, bind_Ok by exact Hlen.
  cbn [fst]. rewrite parity_loop_bits.
  - by rewrite bind_Ok, concat_cells.
  - apply length_layout.
  - repeat constructor.
Qed.

Lemma length_hamming bs : length (hamming bs) = 31.
Proof. unfold hamming. by rewrite length_parity_bits, length_layout. Qed.

(* ===================================================================== *)
(** ** Parity and data of the encoded bits                                *)
(* ===================================================================== *)

Lemma bit_of_bit_char b : bit_of (bit_char b) = Some b.
Proof. by destruct b. Qed.

Lemma codeword_bit_bits hs pos :
  codeword_bit (bits_str hs) pos = hs !! (pos - 1).
Proof.
  unfold codeword_bit, bits_str. rewrite list_lookup_fmap.
  destruct (hs !! (pos - 1)) as [b|]; simpl; [apply bit_of_bit_char | done].
Qed.

Lemma group_xor_bits hs p :
  group_xor (bits_str hs) p
  = xor_bits (map (fun pos => hs !! (pos - 1)) (parity_group p)).
Proof.
  unfold group_xor. f_equal. apply map_ext. intros pos.
  apply codeword_bit_bits.
Qed.

(** Every parity group of the encoded bits has even parity. *)
Lemma hamming_parity bs p :
  length bs = 26 -> In p parity_positions ->
  xor_bits (map (fun pos => hamming bs !! (pos - 1)) (parity_group p))
  = Some false.
Proof.
  intros Hlen Hp. destruct_list bs Hlen.
  simpl in Hp.
  destruct Hp as [<-|[<-|[<-|[<-|[<-|[]]]]]];
    cbv -[xorb]; f_equal; btauto.
Qed.

(** The data positions of the encoded bits hold the block. *)
Lemma hamming_data bs :
  length bs = 26 ->
  extract_data (bits_str (hamming bs)) = Some (bits_str bs).
Proof. intros Hlen. destruct_list bs Hlen. reflexivity. Qed.

Ltac solve_binary :=
  unfold binary, lit; simpl;
  repeat (constructor; [first [by left | by right]|]);
  constructor.

(** A block of 26 characters '0' and '1' is encoded, and the codeword is
    the string of the bits of [hamming]. *)
Lemma encode_binary (chunk : str) :
  length chunk = 26 -> binary chunk ->
  exists bs, length bs = 26 /\ chunk = bits_str bs /\
             encode_hamming_31_26 chunk = Ok (bits_str (hamming bs)).
Proof.
  intros Hlen Hbin.
  destruct (binary_bits_str chunk Hbin) as (bs & -> & Hbs).
  exists bs. rewrite Hbs, Hlen. split; [reflexivity|]. split; [reflexivity|].
  apply encode_bits. by rewrite Hbs.
Qed.

(** C1: the codeword of a block of 26 characters '0' and '1' has even
    parity: for every parity position p of 1, 2, 4, 8, 16 the XOR of its
    bits over the positions pos of 1..31 with pos & p != 0, p included,
    is 0. *)
Theorem encode_parity_invariant (chunk : str) :
  length chunk = 26 -> binary chunk ->
  exists cw, encode_hamming_31_26 chunk = Ok cw /\
             forall p, In p parity_positions -> group_xor cw p = Some false.
Proof.
  intros Hlen Hbin.
  destruct (encode_binary chunk Hlen Hbin) as (bs & Hbs & -> & Henc).
  eexists. split; [exact Henc|]. intros p Hp.
  rewrite group_xor_bits. by apply hamming_parity.
Qed.

Lemma encode_parity_invariant_witness :
  exists cw, encode_hamming_31_26 (lit "10100000000000000000000000") = Ok cw /\
             forall p, In p parity_positions -> group_xor cw p = Some false.
Proof.
  apply (encode_parity_invariant (lit "10100000000000000000000000")).
  - reflexivity.
  - solve_binary.
Defined.

(** C2: the characters of the codeword at the 26 positions that are not
    parity positions, taken in ascending order, are the block; the first
    character of the block is at position 3 and the second at position 5. *)
Theorem encode_data_preserved (chunk : str) :
  length chunk = 26 -> binary chunk ->
  exists cw, encode_hamming_31_26 chunk = Ok cw /\
             extract_data cw = Some chunk /\
             data_positions
             = [3; 5; 6; 7; 9; 10; 11; 12; 13; 14; 15; 17; 18; 19; 20; 21;
                22; 23; 24; 25; 26; 27; 28; 29; 30; 31] /\
             cw !! (3 - 1) = chunk !! 0 /\
             cw !! (5 - 1) = chunk !! 1.
Proof.
  intros Hlen Hbin.
  destruct (encode_binary chunk Hlen Hbin) as (bs & Hbs & -> & Henc).
  eexists. split; [exact Henc|]. split; [by apply hamming_data|].
  split; [reflexivity|]. destruct_list bs Hbs. split; reflexivity.
Qed.

Lemma encode_data_preserved_witness :
  exists cw, encode_hamming_31_26 (lit "10100000000000000000000000") = Ok cw /\
             extract_data cw = Some (lit "10100000000000000000000000").
Proof.
  destruct (encode_data_preserved (lit "10100000000000000000000000"))
    as (cw & E & D & _).
  - reflexivity.
  - solve_binary.
  - exists cw. split; [exact E | exact D].
Defined.

(** C7: every chunk of a non-empty input has 26 characters, and the
    codeword of a block of 26 bits has 31 characters. *)
Theorem length_invariants :
  (forall bits : str, bits <> [] ->
     exists chunks, chunk_bits bits 26 = Ok chunks /\
                    Forall (fun chunk => length chunk = 26) chunks) /\
  (forall chunk : str, length chunk = 26 -> binary chunk ->
     exists cw, encode_hamming_31_26 chunk = Ok cw /\ length cw = 31).
Proof.
  split.
  - intros bits _. eexists. split; [apply chunk_bits_26|].
    unfold windows. apply Forall_fmap, Forall_forall. intros k _.
    apply length_window. lia.
  - intros chunk Hlen Hbin.
    destruct (encode_binary chunk Hlen Hbin) as (bs & Hbs & -> & Henc).
    eexists. split; [exact Henc|].
    unfold bits_str. by rewrite length_map, length_hamming.
Qed.

Lemma length_invariants_witness :
  (exists chunks, chunk_bits (lit "101") 26 = Ok chunks /\
                  Forall (fun chunk => length chunk = 26) chunks) /\
  (exists cw, encode_hamming_31_26 (lit "10100000000000000000000000") = Ok cw /\
              length cw = 31).
Proof.
  split.
  - apply (proj1 length_invariants (lit "101")). discriminate.
  - apply (proj2 length_invariants (lit "10100000000000000000000000")).
    + reflexivity.
    + solve_binary.
Defined.

(** C10: every character of the codeword of a block of 26 characters '0'
    and '1' is '0' or '1'. *)
Theorem encode_binary_codeword (chunk : str) :
  length chunk = 26 -> binary chunk ->
  exists cw, encode_hamming_31_26 chunk = Ok cw /\ binary cw.
Proof.
  intros Hlen Hbin.
  destruct (encode_binary chunk Hlen Hbin) as (bs & Hbs & -> & Henc).
  eexists. split; [exact Henc | apply bits_str_binary].
Qed.

Lemma encode_binary_codeword_witness :
  exists cw, encode_hamming_31_26 (lit "11111111111111111111111111") = Ok cw /\
             binary cw.
Proof.
  apply (encode_binary_codeword (lit "11111111111111111111111111")).
  - reflexivity.
  - solve_binary.
Defined.

(** C8: the input "101" gives one chunk, "101" followed by 23 '0', the
    padding is 23, and the codeword of that chunk has even parity in every
    parity group and holds the chunk at its data positions. *)
Theorem scenario_101 :
  chunk_bits (lit "101") 26 = Ok [lit "10100000000000000000000000"] /\
  padding_added (lit "101") = 23 /\
  encode_hamming_31_26 (lit "10100000000000000000000000")
  = Ok (lit "1011010000000000000000000000000") /\
  Forall (fun p => group_xor (lit "1011010000000000000000000000000") p
                   = Some false) parity_positions /\
  extract_data (lit "1011010000000000000000000000000")
  = Some (lit "10100000000000000000000000").
Proof.
  split; [reflexivity|]. split; [reflexivity|]. split; [reflexivity|].
  split; [|reflexivity]. repeat constructor.
Qed.

(* ===================================================================== *)
(** ** The encoder on arbitrary blocks of 26 characters                   *)
(* ===================================================================== *)

Lemma place_chunk chunk :
  length chunk = 26 ->
  for_each (range 1 32) (place_body chunk) (replicate 31 (lit "0"), 0)
  = Ok (layout_cells chunk, 26).
Proof. intros Hlen. destruct_list chunk Hlen. reflexivity. Qed.

Lemma py_int_char c :
  py_int [c]
  = match digit_value c with
    | Some d => Ok d
    | None => Raise (ValueError (InvalidLiteral [c]))
    end.
Proof. by destruct c as [[] [] [] [] [] [] [] []]. Qed.

Lemma cells_read_cons cw p pos ps :
  cells_read cw p (pos :: ps)
  = if negb (Nat.land pos p =? 0)
    then match cw !! (pos - 1) with
         | Some s => s :: cells_read cw p ps
         | None => cells_read cw p ps
         end
    else cells_read cw p ps.
Proof.
  unfold cells_read. cbn [List.filter].
  by destruct (negb (Nat.land pos p =? 0)).
Qed.

Lemma xor_body_skip cw p acc pos :
  negb (Nat.land pos p =? 0) = false -> xor_body cw p acc pos = Ok acc.
Proof. intros H. unfold xor_body. by rewrite H. Qed.

Lemma xor_body_read cw p acc pos s :
  negb (Nat.land pos p =? 0) = true -> cw !! (pos - 1) = Some s ->
  xor_body cw p acc pos = (v ← py_int s; Ok (Z.lxor acc v)).
Proof. intros H Hs. unfold xor_body, getitem. by rewrite H, Hs. Qed.

(** The inner parity loop returns when every cell it converts is an
    integer literal, and otherwise raises what [int] raises on one of
    them. *)
Lemma xor_loop_spec cw p ps : forall acc,
  Forall (fun pos => pos - 1 < length cw) ps ->
  match for_each ps (xor_body cw p) acc with
  | Ok _ => Forall (fun s => exists v, py_int s = Ok v) (cells_read cw p ps)
  | Raise e => Exists (fun s => py_int s = Raise e) (cells_read cw p ps)
  end.
Proof.
  induction ps as [|pos ps IH]; intros acc Hps; [constructor|].
  inversion Hps as [|? ? Hpos Hps']; subst.
  rewrite for_each_cons, cells_read_cons.
  destruct (negb (Nat.land pos p =? 0)) eqn:Hin.
  - destruct (lookup_lt_is_Some_2 cw (pos - 1) Hpos) as [s Hs].
    rewrite (xor_body_read _ _ _ _ s Hin Hs), Hs.
    destruct (py_int s) as [v|e] eqn:Hint.
    + rewrite !bind_Ok. specialize (IH (Z.lxor acc v) Hps').
      destruct (for_each ps (xor_body cw p) (Z.lxor acc v)).
      * constructor; [by exists v | exact IH].
      * by apply Exists_cons_tl.
    + rewrite !bind_Raise. by apply Exists_cons_hd.
  - rewrite (xor_body_skip _ _ _ _ Hin), bind_Ok. by apply IH.
Qed.

(** One round of the outer parity loop. *)
Lemma parity_body_spec cw p :
  length cw = 31 -> p <= 31 ->
  match parity_body cw p with
  | Ok cw' =>
      (exists z, cw' = <[p - 1 := py_str z]> cw) /\
      Forall (fun s => exists v, py_int s = Ok v) (cells_read cw p (range 1 32))
  | Raise e =>
      Exists (fun s => py_int s = Raise e) (cells_read cw p (range 1 32))
  end.
Proof.
  intros Hlen Hp. unfold parity_body.
  assert (Forall (fun pos => pos - 1 < length cw) (range 1 32)) as Hps.
  { rewrite Hlen. apply Forall_forall. intros pos Hin.
    unfold range in Hin. apply elem_of_seq in Hin. lia. }
  pose proof (xor_loop_spec cw p (range 1 32) 0%Z Hps) as H.
  destruct (for_each (range 1 32) (xor_body cw p) 0%Z) as [z|e].
  - rewrite bind_Ok. unfold setitem.
    destruct (Nat.ltb_spec (p - 1) (length cw)); [|lia].
    split; [by exists z | exact H].
  - rewrite bind_Raise. exact H.
Qed.

Lemma digit_of_read c l :
  Forall (fun s => exists v, py_int s = Ok v) l -> In [c] l ->
  is_Some (digit_value c).
Proof.
  intros Hall Hin. apply List.Forall_forall with (x := [c]) in Hall; [|exact Hin].
  destruct Hall as [v Hv]. rewrite py_int_char in Hv.
  destruct (digit_value c); [by eexists | discriminate].
Qed.

Lemma py_int_raise c e :
  py_int [c] = Raise e ->
  digit_value c = None /\ e = ValueError (InvalidLiteral [c]).
Proof.
  rewrite py_int_char. destruct (digit_value c); [discriminate|].
  by intros [= <-].
Qed.

Ltac solve_In := solve [simpl; repeat first [left; reflexivity | right]].

(** One round of the outer loop on an array written out cell by cell:
    either it raises on a cell of its group, or the array gets the parity
    string and the cells of the group are integer literals. *)
Ltac parity_round :=
  rewrite for_each_cons;
  lazymatch goal with
  | |- context [parity_body ?cw ?p] =>
      let H := fresh "Hround" in
      pose proof (parity_body_spec cw p eq_refl ltac:(lia)) as H;
      let t := eval lazy in (cells_read cw p (range 1 32)) in
      change (cells_read cw p (range 1 32)) with t in H;
      destruct (parity_body cw p) as [cw'|e];
      [ let z := fresh "z" in
        let s := fresh "s" in
        destruct H as [[z ->] H];
        rewrite bind_Ok;
        generalize (py_str z); intros s;
        lazymatch goal with
        | |- context [<[?i := s]> cw] =>
            let t' := eval lazy in (<[i := s]> cw) in
            change (<[i := s]> cw) with t'
        end
      | rewrite !bind_Raise;
        repeat (apply Exists_cons in H; destruct H as [H|H]);
        [ first
            [ discriminate H
            | apply py_int_raise in H; destruct H as [H ->];
              eexists; split; [|split; [exact H | reflexivity]]; solve_In ] ..
        | by apply Exists_nil in H ] ]
  end.

(** A block of 26 characters is encoded exactly when all its characters
    are decimal digits; otherwise the encoder raises the [ValueError] of
    [int] on one of the characters that is not a digit. *)
Lemma encode_26_cases chunk :
  length chunk = 26 ->
  match encode_hamming_31_26 chunk with
  | Ok cw => Forall (fun c => is_Some (digit_value c)) chunk
  | Raise e =>
      exists c, In c chunk /\ digit_value c = None /\
                e = ValueError (InvalidLiteral [c])
  end.
Proof.
  intros Hlen. unfold encode_hamming_31_26.
  rewrite Hlen. cbn [Nat.eqb negb].
  rewrite place_chunk, bind_Ok by exact Hlen. cbn [fst].
  destruct_list chunk Hlen.
  lazymatch goal with
  | |- context [layout_cells ?l] =>
      let t := eval lazy in (layout_cells l) in
      change (layout_cells l) with t
  end.
  unfold parity_positions.
  do 5 parity_round.
  cbn [for_each]. rewrite bind_Ok.
  repeat (constructor;
          [match goal with
           | H : Forall _ ?l |- is_Some (digit_value ?c) =>
               apply (digit_of_read c l H); solve_In
           end|]).
  constructor.
Qed.

Lemma digit_value_is_digit c :
  match digit_value c with
  | Some _ => is_digit c = true
  | None => is_digit c = false
  end.
Proof. by destruct c as [[] [] [] [] [] [] [] []]. Qed.

Lemma encode_wrong_length (chunk : str) :
  length chunk <> 26 ->
  encode_hamming_31_26 chunk = Raise (ValueError (ChunkLength (length chunk))).
Proof.
  intros Hlen. unfold encode_hamming_31_26.
  by destruct (Nat.eqb_spec (length chunk) 26).
Qed.

Lemma encode_digits (chunk : str) :
  length chunk = 26 -> Forall (fun c => is_Some (digit_value c)) chunk ->
  exists cw, encode_hamming_31_26 chunk = Ok cw.
Proof.
  intros Hlen Hall. pose proof (encode_26_cases chunk Hlen) as H.
  destruct (encode_hamming_31_26 chunk) as [cw|e]; [by exists cw|].
  destruct H as (c & Hin & Hc & _).
  apply List.Forall_forall with (x := c) in Hall; [|exact Hin].
  rewrite Hc in Hall. by destruct Hall.
Qed.

Lemma encode_not_digit (chunk : str) :
  length chunk = 26 -> Exists (fun c => digit_value c = None) chunk ->
  exists c, In c chunk /\ digit_value c = None /\
            encode_hamming_31_26 chunk = Raise (ValueError (InvalidLiteral [c])).
Proof.
  intros Hlen Hex. pose proof (encode_26_cases chunk Hlen) as H.
  destruct (encode_hamming_31_26 chunk) as [cw|e].
  - apply List.Exists_exists in Hex. destruct Hex as (c & Hin & Hc).
    apply List.Forall_forall with (x := c) in H; [|exact Hin].
    rewrite Hc in H. by destruct H.
  - destruct H as (c & Hin & Hc & ->). by exists c.
Qed.

Lemma binary_digits (chunk : str) :
  binary chunk -> Forall (fun c => is_Some (digit_value c)) chunk.
Proof.
  induction 1 as [|c s [-> | ->] _ IH]; constructor;
    solve [by eexists | exact IH].
Qed.

(** C3, as the code has it: the encoder raises [ValueError] when the
    block does not have 26 characters, and, for a block of 26 characters,
    when one of them is not a decimal digit (the error is the one [int]
    raises on that character).  A block of 26 decimal digits is encoded,
    whether or not its digits are '0' and '1'. *)
Theorem encode_invalid_input (chunk : str) :
  (length chunk <> 26 ->
   encode_hamming_31_26 chunk
   = Raise (ValueError (ChunkLength (length chunk)))) /\
  (length chunk = 26 -> Exists (fun c => is_digit c = false) chunk ->
   exists c, In c chunk /\ is_digit c = false /\
             encode_hamming_31_26 chunk
             = Raise (ValueError (InvalidLiteral [c]))) /\
  (length chunk = 26 -> Forall (fun c => is_digit c = true) chunk ->
   exists cw, encode_hamming_31_26 chunk = Ok cw).
Proof.
  split; [apply encode_wrong_length|]. split.
  - intros Hlen Hex.
    destruct (encode_not_digit chunk Hlen) as (c & Hin & Hc & Henc).
    + apply List.Exists_exists in Hex. destruct Hex as (c & Hin & Hc).
      apply List.Exists_exists. exists c. split; [exact Hin|].
      pose proof (digit_value_is_digit c) as Hd.
      destruct (digit_value c); [congruence | reflexivity].
    + exists c. split; [exact Hin|]. split; [|exact Henc].
      pose proof (digit_value_is_digit c) as Hd. by rewrite Hc in Hd.
  - intros Hlen Hall. apply encode_digits; [exact Hlen|].
    apply List.Forall_forall. intros c Hin.
    apply List.Forall_forall with (x := c) in Hall; [|exact Hin].
    pose proof (digit_value_is_digit c) as Hd.
    destruct (digit_value c); [by eexists | congruence].
Qed.

Lemma encode_invalid_input_witness :
  encode_hamming_31_26 (lit "101")
  = Raise (ValueError (ChunkLength 3)) /\
  (exists c, In c (lit "1010000000000000000000000x") /\ is_digit c = false /\
             encode_hamming_31_26 (lit "1010000000000000000000000x")
             = Raise (ValueError (InvalidLiteral [c]))) /\
  (exists cw, encode_hamming_31_26 (lit "98765432100123456789000000") = Ok cw).
Proof.
  split; [|split].
  - apply (proj1 (encode_invalid_input (lit "101"))). discriminate.
  - apply (proj1 (proj2 (encode_invalid_input (lit "1010000000000000000000000x"))));
      [reflexivity|].
    apply List.Exists_exists. exists "x"%char. split; [solve_In | reflexivity].
  - apply (proj2 (proj2 (encode_invalid_input (lit "98765432100123456789000000"))));
      [reflexivity|].
    unfold lit; simpl. repeat constructor.
Defined.

(** C3 fails as stated: a block of 26 characters whose first character is
    '2', neither '0' nor '1', is encoded without an error. *)
Lemma encode_accepts_digit_two :
  length (lit "20000000000000000000000000") = 26 /\
  Exists (fun c => c <> "0"%char /\ c <> "1"%char)
         (lit "20000000000000000000000000") /\
  encode_hamming_31_26 (lit "20000000000000000000000000")
  = Ok (lit "2220000000000000000000000000000").
Proof.
  split; [reflexivity|]. split; [|reflexivity].
  apply Exists_cons_hd. split; discriminate.
Qed.

(** C6, as the code has it: the encoder raises exactly when the block does
    not have 26 characters or holds a character that is not a decimal
    digit; the chunk-length error is raised exactly when the length is not
    26; on blocks of '0' and '1' it raises exactly when the length is not
    26, and it returns for every such block of length 26. *)
Theorem encode_raises_iff (chunk : str) :
  ((exists e, encode_hamming_31_26 chunk = Raise e) <->
   length chunk <> 26 \/ Exists (fun c => is_digit c = false) chunk) /\
  (forall n, encode_hamming_31_26 chunk = Raise (ValueError (ChunkLength n))
             <-> length chunk <> 26 /\ n = length chunk) /\
  (binary chunk ->
   ((exists e, encode_hamming_31_26 chunk = Raise e) <-> length chunk <> 26)) /\
  (length chunk = 26 -> binary chunk ->
   exists cw, encode_hamming_31_26 chunk = Ok cw).
Proof.
  assert (forall c, is_digit c = false <-> digit_value c = None) as Hdig.
  { intros c. pose proof (digit_value_is_digit c) as Hd.
    destruct (digit_value c); split; congruence. }
  destruct (Nat.eq_dec (length chunk) 26) as [Hlen|Hlen].
  - pose proof (encode_26_cases chunk Hlen) as Hcases.
    split; [|split; [|split]].
    + split.
      * intros [e He]. right. rewrite He in Hcases.
        destruct Hcases as (c & Hin & Hc & _).
        apply List.Exists_exists. exists c. by rewrite Hdig.
      * intros [?|Hex]; [done|].
        apply List.Exists_exists in Hex. destruct Hex as (c & Hin & Hc).
        apply Hdig in Hc.
        destruct (encode_hamming_31_26 chunk) as [cw|e]; [|by exists e].
        apply List.Forall_forall with (x := c) in Hcases; [|exact Hin].
        rewrite Hc in Hcases. by destruct Hcases.
    + intros n. split; [|by intros [? _]].
      intros He. rewrite He in Hcases.
      by destruct Hcases as (c & _ & _ & ?).
    + intros Hbin.
      destruct (encode_digits chunk Hlen (binary_digits chunk Hbin)) as [cw ->].
      split; [by intros [e ?] | done].
    + intros _ Hbin. exact (encode_digits chunk Hlen (binary_digits chunk Hbin)).
  - pose proof (encode_wrong_length chunk Hlen) as Herr.
    split; [|split; [|split]].
    + split; [by left | intros _; by eexists].
    + intros n. rewrite Herr. split.
      * by intros [= <-].
      * by intros [_ ->].
    + intros _. split; [done | intros _; by eexists].
    + done.
Qed.

Lemma encode_raises_iff_witness :
  exists cw, encode_hamming_31_26 (lit "10100000000000000000000000") = Ok cw.
Proof.
  apply (proj2 (proj2 (proj2 (encode_raises_iff (lit "10100000000000000000000000"))))).
  - reflexivity.
  - solve_binary.
Defined.

(** C6 fails as stated: a block of exactly 26 characters that are not
    digits makes the encoder raise. *)
Lemma encode_raises_at_length_26 :
  length (lit "aaaaaaaaaaaaaaaaaaaaaaaaaa") = 26 /\
  encode_hamming_31_26 (lit "aaaaaaaaaaaaaaaaaaaaaaaaaa")
  = Raise (ValueError (InvalidLiteral (lit "a"))).
Proof. split; reflexivity. Qed.

(* ===================================================================== *)
(** ** The chunker at any chunk size                                      *)
(* ===================================================================== *)

Lemma range_step_positive stop step :
  (0 < step)%Z ->
  range_step stop step
  = Ok (map (fun k => k * Z.to_nat step)
            (seq 0 (Z.to_nat ((Z.of_nat stop + step - 1) / step)))).
Proof.
  intros Hs. unfold range_step.
  destruct (Z.eqb_spec step 0); [lia|].
  by destruct (Z.ltb_spec step 0); [lia|].
Qed.

Lemma range_count stop step :
  (0 < step)%Z ->
  Z.to_nat ((Z.of_nat stop + step - 1) / step) = ceil_div stop (Z.to_nat step).
Proof.
  intros Hs. unfold ceil_div.
  rewrite <- (Z2Nat.id step) at 1 2 by lia.
  set (n := Z.to_nat step). assert (0 < n) as Hn by lia.
  replace (Z.of_nat stop + Z.of_nat n - 1)%Z with (Z.of_nat (stop + n - 1)) by lia.
  rewrite <- Nat2Z.inj_div. apply Nat2Z.id.
Qed.

Lemma binary_window n (bits : str) i : binary bits -> binary (window n bits i).
Proof.
  intros Hb. unfold window, binary. apply Forall_app. split.
  - by apply Forall_take, Forall_drop.
  - apply Forall_replicate. by left.
Qed.

(** X1: the chunker raises exactly when the chunk size is 0 (the step of
    its range), and it returns no chunk exactly when the chunk size is
    negative or the input is empty. *)
Theorem chunk_bits_edges (bits : str) (chunk_size : Z) :
  ((exists e, chunk_bits bits chunk_size = Raise e) <-> chunk_size = 0%Z) /\
  (chunk_size = 0%Z -> chunk_bits bits chunk_size = Raise (ValueError ZeroStep)) /\
  (chunk_bits bits chunk_size = Ok [] <->
   (chunk_size < 0)%Z \/ ((0 < chunk_size)%Z /\ bits = [])).
Proof.
  destruct (Z.lt_trichotomy chunk_size 0) as [Hneg|[->|Hpos]].
  - assert (chunk_bits bits chunk_size = Ok []) as ->.
    { unfold chunk_bits, range_step.
      destruct (Z.eqb_spec chunk_size 0); [lia|].
      by destruct (Z.ltb_spec chunk_size 0); [|lia]. }
    split; [|split].
    + split; [by intros [e ?] | lia].
    + lia.
    + split; [by left | done].
  - split; [|split]; [split; [done | by eexists] | done |].
    split; [discriminate | lia].
  - rewrite chunk_bits_windows by exact Hpos.
    split; [|split].
    + split; [by intros [e ?] | lia].
    + lia.
    + rewrite range_count by exact Hpos. split.
      * intros [= Hw]. right. split; [exact Hpos|].
        apply (f_equal length) in Hw. rewrite length_windows in Hw.
        apply ceil_div_zero in Hw; [|lia]. by destruct bits.
      * intros [?|[_ ->]]; [lia|]. simpl.
        unfold ceil_div. rewrite Nat.div_small by lia. reflexivity.
Qed.

(** X2: at any positive chunk size n the chunker returns ceil(L/n) chunks
    of n characters each, whose concatenation is the input followed by
    (n - L mod n) mod n characters '0'; the first L characters of the
    concatenation are the input. *)
Theorem chunk_bits_any_size (bits : str) (chunk_size : Z) :
  (0 < chunk_size)%Z ->
  exists chunks,
    chunk_bits bits chunk_size = Ok chunks /\
    length chunks = ceil_div (length bits) (Z.to_nat chunk_size) /\
    Forall (fun chunk => Z.of_nat (length chunk) = chunk_size) chunks /\
    concat chunks
    = bits ++ replicate ((Z.to_nat chunk_size
                          - length bits mod Z.to_nat chunk_size)
                         mod Z.to_nat chunk_size) "0"%char /\
    take (length bits) (concat chunks) = bits.
Proof.
  intros Hpos. eexists. split; [by apply chunk_bits_windows|].
  rewrite range_count by exact Hpos.
  set (n := Z.to_nat chunk_size). assert (0 < n) as Hn by lia.
  rewrite length_windows. split; [reflexivity|]. split.
  - unfold windows. apply Forall_fmap, Forall_forall. intros k _. simpl.
    rewrite length_window by exact Hn. lia.
  - rewrite (concat_windows n Hn _ bits eq_refl).
    split; [reflexivity|]. by rewrite take_app_length.
Qed.

Lemma chunk_bits_any_size_witness :
  exists chunks,
    chunk_bits (lit "10110") 2 = Ok chunks /\
    concat chunks = lit "101100".
Proof.
  destruct (chunk_bits_any_size (lit "10110") 2) as (chunks & E & _ & _ & C & _).
  - reflexivity.
  - exists chunks. split; [exact E | exact C].
Defined.

(** X3: the chunks of a string of '0' and '1' are strings of '0' and '1',
    whatever the chunk size. *)
Theorem chunk_bits_binary (bits : str) (chunk_size : Z) (chunks : list str) :
  binary bits -> chunk_bits bits chunk_size = Ok chunks ->
  Forall binary chunks.
Proof.
  intros Hb. destruct (Z.lt_trichotomy chunk_size 0) as [Hneg|[->|Hpos]].
  - unfold chunk_bits, range_step.
    destruct (Z.eqb_spec chunk_size 0); [lia|].
    destruct (Z.ltb_spec chunk_size 0); [|lia].
    intros [= <-]. constructor.
  - discriminate.
  - rewrite chunk_bits_windows by exact Hpos. intros [= <-].
    unfold windows. apply Forall_fmap, Forall_forall. intros k _.
    by apply binary_window.
Qed.

Lemma chunk_bits_binary_witness :
  Forall binary [lit "10100000000000000000000000"].
Proof.
  apply (chunk_bits_binary (lit "101") 26).
  - solve_binary.
  - reflexivity.
Defined.

(* ===================================================================== *)
(** ** Reading the bits of a file                                         *)
(* ===================================================================== *)

Lemma is_bit_spec c : is_bit c = true <-> c = "0"%char \/ c = "1"%char.
Proof.
  unfold is_bit. rewrite orb_true_iff, !Ascii.eqb_eq. reflexivity.
Qed.

Lemma filter_bits_binary content : binary (filter_bits content).
Proof.
  unfold binary, filter_bits. apply List.Forall_forall. intros c Hc.
  apply filter_In in Hc. apply is_bit_spec. by destruct Hc.
Qed.






(* ===================================================================== *)
(** ** Runs of [main]                                                     *)
(* ===================================================================== *)

Lemma comprehension_Forall2 {A B} (f : A -> result B) (P : B -> Prop) xs :
  Forall (fun x => exists y, f x = Ok y /\ P y) xs ->
  exists ys, comprehension f xs = Ok ys /\
             Forall2 (fun x y => f x = Ok y) xs ys /\ Forall P ys.
Proof.
  induction 1 as [|x xs (y & Hy & HP) _ (ys & Hys & H2 & HPs)].
  - exists []. by repeat split; constructor.
  - exists (y :: ys). simpl. rewrite Hy, bind_Ok, Hys, bind_Ok.
    by repeat split; constructor.
Qed.

(** Chunking and encoding a non-empty string of '0' and '1'. *)
Lemma encode_chunks (bits : str) :
  binary bits ->
  exists cws,
    comprehension encode_hamming_31_26
                  (windows 26 bits (ceil_div (length bits) 26)) = Ok cws /\
    Forall2 (fun chunk cw => encode_hamming_31_26 chunk = Ok cw)
            (windows 26 bits (ceil_div (length bits) 26)) cws /\
    Forall (fun cw => length cw = 31 /\ binary cw) cws.
Proof.
  intros Hb. apply comprehension_Forall2.
  unfold windows. apply Forall_fmap, Forall_forall. intros k _. simpl.
  destruct (encode_binary (window 26 bits (k * 26))) as (bs & Hbs & _ & Henc).
  - apply length_window. lia.
  - by apply binary_window.
  - eexists. split; [exact Henc|]. split; [|apply bits_str_binary].
    unfold bits_str. by rewrite length_map, length_hamming.
Qed.

Lemma effective_bits_binary read_file a bits :
  effective_bits read_file a = Some bits -> binary bits.
Proof.
  unfold effective_bits. intros H.
  assert (exists content, bits = filter_bits content) as [content ->];
    [|apply filter_bits_binary].
  destruct (arg_bits a) as [[|c s]|];
    [| exists (c :: s); congruence |];
    (destruct (arg_file a) as [path|]; [|discriminate];
     destruct (read_file path) as [content|]; [|discriminate];
     exists content; simpl in H; congruence).
Qed.

(** [main] up to its summary, in terms of the bit string it works on. *)
Lemma main_effective read_file a :
  main read_file a
  = match effective_bits read_file a with
    | Some bits =>
        if is_empty bits then
          Raise (SystemExit
                   match arg_bits a with
                   | Some (_ :: _) => NoBinaryDigitInBits
                   | _ => NoBinaryDigitInFile (default [] (arg_file a))
                   end)
        else
          chunks ← chunk_bits bits 26;
          codewords ← comprehension encode_hamming_31_26 chunks;
          Ok (Summary (length bits) (length chunks) (padding_added bits)
                      codewords)
    | None =>
        match arg_file a with
        | Some path => Raise (SystemExit (ErrorReadingFile path))
        | None => Raise TypeError
        end
    end.
Proof.
  unfold main, effective_bits, read_bits_from_file.
  destruct (arg_bits a) as [[|c s]|].
  - destruct (arg_file a) as [path|]; [|reflexivity].
    destruct (read_file path) as [content|]; [|reflexivity]. simpl.
    by destruct (filter_bits content).
  - by destruct (filter_bits (c :: s)).
  - destruct (arg_file a) as [path|]; [|reflexivity].
    destruct (read_file path) as [content|]; [|reflexivity]. simpl.
    by destruct (filter_bits content).
Qed.

(** With at least one binary digit in the input, [main] reaches its
    summary. *)
Lemma main_returns (read_file : str -> option str) (a : args) (bits : str) :
  effective_bits read_file a = Some bits -> bits <> [] ->
  exists cws,
    comprehension encode_hamming_31_26
                  (windows 26 bits (ceil_div (length bits) 26)) = Ok cws /\
    main read_file a
    = Ok (Summary (length bits) (ceil_div (length bits) 26)
                  (padding_added bits) cws).
Proof.
  intros Heff Hne. pose proof (effective_bits_binary _ _ _ Heff) as Hb.
  destruct (encode_chunks bits Hb) as (cws & Hcomp & _).
  exists cws. split; [exact Hcomp|].
  rewrite main_effective, Heff.
  assert (is_empty bits = false) as -> by (by destruct bits).
  by rewrite chunk_bits_26, bind_Ok, Hcomp, bind_Ok, length_windows.
Qed.

(** X5: when the input holds at least one binary digit, [main] reaches
    its summary: the chunks of the bit string are all encoded, so the
    length and digit checks of the encoder never fire; every codeword has
    31 characters '0' or '1', there is one per chunk, and the reported
    length and padding add up to 26 times the number of chunks. *)
Theorem main_encodes_input (read_file : str -> option str) (a : args)
        (bits : str) :
  effective_bits read_file a = Some bits -> bits <> [] ->
  exists r chunks,
    main read_file a = Ok r /\
    chunk_bits bits 26 = Ok chunks /\
    original_length r = length bits /\
    chunk_count r = length chunks /\
    padding r = padding_added bits /\
    original_length r + padding r = 26 * chunk_count r /\
    Forall2 (fun chunk cw => encode_hamming_31_26 chunk = Ok cw)
            chunks (codewords r) /\
    Forall (fun cw => length cw = 31 /\ binary cw) (codewords r).
Proof.
  intros Heff Hne. pose proof (effective_bits_binary _ _ _ Heff) as Hb.
  destruct (main_returns read_file a bits Heff Hne) as (cws & Hcomp & ->).
  destruct (encode_chunks bits Hb) as (cws' & Hcomp' & H2 & Hall).
  assert (cws' = cws) as -> by congruence.
  eexists. eexists. split; [reflexivity|]. split; [apply chunk_bits_26|].
  cbn [original_length chunk_count padding codewords].
  rewrite length_windows. split; [reflexivity|]. split; [reflexivity|].
  split; [reflexivity|]. split; [|by split].
  rewrite padding_added_fill.
  pose proof (ceil_div_26_bounds bits Hne). lia.
Qed.

Lemma main_encodes_input_witness :
  exists r chunks,
    main (fun _ => None) (Args (Some (lit "1 0 1")) None None) = Ok r /\
    chunk_bits (lit "101") 26 = Ok chunks /\
    original_length r = 3.
Proof.
  destruct (main_encodes_input (fun _ => None)
              (Args (Some (lit "1 0 1")) None None) (lit "101"))
    as (r & chunks & E & C & L & _).
  - reflexivity.
  - discriminate.
  - exists r, chunks. split; [exact E|]. split; [exact C | exact L].
Defined.



Lemma split_lines_line l rest :
  Forall (fun c => c <> newline) l ->
  split_lines (l ++ newline :: rest) = l :: split_lines rest.
Proof.
  induction 1 as [|c l Hc _ IH]; [reflexivity|].
  cbn [app split_lines]. rewrite IH.
  by destruct (Ascii.eqb_spec c newline).
Qed.

(** Lines without a newline, each written with a newline after it, are
    read back by [split_lines]. *)
Lemma split_lines_join ls :
  Forall (Forall (fun c => c <> newline)) ls ->
  split_lines (concat (map (fun l => l ++ [newline]) ls)) = ls.
Proof.
  induction 1 as [|l ls Hl _ IH]; [reflexivity|].
  cbn [map concat]. rewrite <- app_assoc. cbn [app].
  by rewrite split_lines_line, IH.
Qed.

Lemma length_join_lines n (ls : list str) :
  Forall (fun l => length l = n) ls ->
  length (concat (map (fun l => l ++ [newline]) ls)) = (n + 1) * length ls.
Proof.
  induction 1 as [|l ls Hl _ IH]; [simpl; lia|].
  cbn [map concat]. rewrite !length_app, IH, Hl. simpl. lia.
Qed.

Lemma binary_no_newline (s : str) :
  binary s -> Forall (fun c => c <> newline) s.
Proof.
  unfold binary. induction 1 as [|c s [-> | ->] _ IH];
    constructor; solve [discriminate | exact IH].
Qed.

(** What [main] has computed when it reaches its output stage. *)
Lemma main_codewords read_file a r :
  main read_file a = Ok r ->
  length (codewords r) = chunk_count r /\
  Forall (fun cw => length cw = 31 /\ binary cw) (codewords r).
Proof.
  intros Hmain.
  destruct (effective_bits read_file a) as [bits|] eqn:Heff.
  - destruct bits as [|c bits].
    + rewrite main_effective, Heff in Hmain. discriminate.
    + pose proof (effective_bits_binary _ _ _ Heff) as Hb.
      destruct (main_returns read_file a (c :: bits) Heff) as (cws & Hc & Hm);
        [done|].
      destruct (encode_chunks (c :: bits) Hb) as (cws' & Hc' & H2 & Hall).
      assert (cws' = cws) as -> by congruence.
      assert (r = Summary (length (c :: bits))
                          (ceil_div (length (c :: bits)) 26)
                          (padding_added (c :: bits)) cws) as -> by congruence.
      cbn [codewords chunk_count]. split; [|exact Hall].
      apply Forall2_length in H2. by rewrite length_windows in H2.
  - rewrite main_effective, Heff in Hmain. by destruct (arg_file a).
Qed.

(** X7: the output of a run that reaches the output stage.  With a
    non-empty [--out] that can be written, the file holds the codewords,
    one line of 31 characters '0' or '1' each, so 32 characters per chunk,
    and four lines are printed; when it cannot be written the run exits
    and prints nothing.  Without [--out] (or with an empty one) nothing is
    written and the summary, a heading and the codewords are printed. *)
Theorem main_run_output (read_file : str -> option str)
        (can_write : str -> bool) (a : args) (r : summary) :
  main read_file a = Ok r ->
  match arg_out a with
  | Some (c :: path) =>
      if can_write (c :: path) then
        exists content,
          main_run read_file can_write a
          = Done (Output (summary_lines r
                          ++ [lit "Codewords written to " ++ c :: path])
                         (Some (c :: path, content))) /\
          split_lines content = codewords r /\
          length content = 32 * chunk_count r
      else main_run read_file can_write a = ErrorWritingFile (c :: path)
  | _ =>
      exists lines,
        main_run read_file can_write a = Done (Output lines None) /\
        lines = summary_lines r ++ lit "Codewords:" :: codewords r /\
        length lines = 4 + chunk_count r
  end.
Proof.
  intros Hmain. destruct (main_codewords read_file a r Hmain) as [Hlen Hall].
  unfold main_run, main_output. rewrite Hmain.
  destruct (arg_out a) as [[|c path]|].
  - eexists. split; [reflexivity|]. split; [reflexivity|].
    rewrite length_app. simpl. lia.
  - destruct (can_write (c :: path)); [|reflexivity].
    eexists. split; [reflexivity|]. split.
    + apply split_lines_join. eapply Forall_impl; [exact Hall|].
      intros cw [_ Hb]. by apply binary_no_newline.
    + rewrite (length_join_lines 31), Hlen; [lia|].
      eapply Forall_impl; [exact Hall|]. by intros cw [? _].
  - eexists. split; [reflexivity|]. split; [reflexivity|].
    rewrite length_app. simpl. lia.
Qed.

Lemma main_run_output_witness :
  exists content,
    main_run (fun _ => None) (fun _ => true)
             (Args (Some (lit "101")) None (Some (lit "out.txt")))
    = Done (Output (summary_lines (Summary 3 1 23
                      [lit "1011010000000000000000000000000"])
                    ++ [lit "Codewords written to out.txt"])
                   (Some (lit "out.txt", content))) /\
    split_lines content = [lit "1011010000000000000000000000000"] /\
    length content = 32.
Proof.
  exact (main_run_output (fun _ => None) (fun _ => true)
           (Args (Some (lit "101")) None (Some (lit "out.txt")))
           (Summary 3 1 23 [lit "1011010000000000000000000000000"])
           eq_refl).
Defined.

(* ===================================================================== *)
(** ** The codewords as an error-correcting code                          *)
(* ===================================================================== *)

Lemma encode_extract (chunk cw : str) :
  length chunk = 26 -> binary chunk ->
  encode_hamming_31_26 chunk = Ok cw -> extract_data cw = Some chunk.
Proof.
  intros Hlen Hbin Henc.
  destruct (encode_binary chunk Hlen Hbin) as (bs & Hbs & -> & Henc').
  rewrite Henc' in Henc.
  assert (cw = bits_str (hamming bs)) as -> by congruence.
  by apply hamming_data.
Qed.

(** X8: two blocks of 26 bits with the same codeword are the same
    block. *)
Theorem encode_injective (a b cw : str) :
  length a = 26 -> binary a -> length b = 26 -> binary b ->
  encode_hamming_31_26 a = Ok cw -> encode_hamming_31_26 b = Ok cw ->
  a = b.
Proof.
  intros La Ba Lb Bb Ea Eb.
  pose proof (encode_extract a cw La Ba Ea) as Ha.
  pose proof (encode_extract b cw Lb Bb Eb) as Hb.
  congruence.
Qed.

Lemma encode_injective_witness :
  lit "10100000000000000000000000" = lit "10100000000000000000000000".
Proof.
  apply (encode_injective _ _ (lit "1011010000000000000000000000000"));
    first [reflexivity | solve_binary].
Defined.

(** The encoder is linear on bits. *)
Lemma hamming_xor xs ys :
  length xs = 26 -> length ys = 26 ->
  hamming (zip_with xorb xs ys) = zip_with xorb (hamming xs) (hamming ys).
Proof.
  intros Hx Hy. destruct_list xs Hx. destruct_list ys Hy.
  cbv -[xorb]. repeat (apply (f_equal2 cons); [btauto|]). reflexivity.
Qed.

Lemma xor_str_bits xs ys :
  xor_str (bits_str xs) (bits_str ys) = bits_str (zip_with xorb xs ys).
Proof.
  revert ys; induction xs as [|x xs IH]; intros [|y ys]; try reflexivity.
  cbn. f_equal; [by destruct x, y | apply IH].
Qed.

(** X9: the encoder is linear: the codeword of the bitwise XOR of two
    blocks of 26 bits is the bitwise XOR of their codewords. *)
Theorem encode_linear (a b cwa cwb : str) :
  length a = 26 -> binary a -> length b = 26 -> binary b ->
  encode_hamming_31_26 a = Ok cwa -> encode_hamming_31_26 b = Ok cwb ->
  encode_hamming_31_26 (xor_str a b) = Ok (xor_str cwa cwb).
Proof.
  intros La Ba Lb Bb Ea Eb.
  destruct (encode_binary a La Ba) as (xs & Hxs & -> & Ea').
  destruct (encode_binary b Lb Bb) as (ys & Hys & -> & Eb').
  assert (cwa = bits_str (hamming xs)) as -> by congruence.
  assert (cwb = bits_str (hamming ys)) as -> by congruence.
  rewrite !xor_str_bits, <- hamming_xor by assumption.
  apply encode_bits. rewrite length_zip_with. lia.
Qed.

Lemma encode_linear_witness :
  encode_hamming_31_26 (xor_str (lit "10100000000000000000000000")
                                (lit "11000000000000000000000000"))
  = Ok (xor_str (lit "1011010000000000000000000000000")
                (lit "0111100000000000000000000000000")).
Proof.
  apply encode_linear; first [reflexivity | solve_binary].
Defined.

Lemma flip_at_bits hs pos :
  flip_at (bits_str hs) pos = bits_str (alter (xorb true) (pos - 1) hs).
Proof.
  unfold flip_at. generalize (pos - 1) as i.
  induction hs as [|h hs IH]; intros [|i]; try reflexivity.
  - cbn. f_equal. by destruct h.
  - cbn. f_equal. apply IH.
Qed.

(** Inverting one bit of a word inverts the parity of exactly the groups
    that cover its position. *)
Lemma group_parity_flip hs pos p :
  length hs = 31 -> 1 <= pos <= 31 -> In p parity_positions ->
  group_parity (alter (xorb true) (pos - 1) hs) p
  = (fun b => xorb b (negb (Nat.land pos p =? 0))) <$> group_parity hs p.
Proof.
  intros Hlen Hpos Hp. destruct_list hs Hlen.
  simpl in Hp.
  destruct Hp as [<-|[<-|[<-|[<-|[<-|[]]]]]];
    (do 32 (destruct pos as [|pos];
            [first [lia | cbv -[xorb]; f_equal; btauto]|]); lia).
Qed.

Lemma group_xor_parity hs p : group_xor (bits_str hs) p = group_parity hs p.
Proof. apply group_xor_bits. Qed.

Lemma flip_flip_bits (hs : list bool) (i : nat) :
  alter (xorb true) i (alter (xorb true) i hs) = hs.
Proof.
  revert i; induction hs as [|h hs IH]; intros [|i]; try reflexivity.
  - cbn. f_equal. by destruct h.
  - cbn. f_equal. apply IH.
Qed.

(** X10: a single inverted bit is located by the parity groups.  The
    codeword of a block of 26 bits has syndrome 0; after the bit at any
    position pos of 1..31 is inverted, the parity groups that are odd are
    exactly those of the parity positions p with pos & p != 0, the
    syndrome is pos, and inverting the bit at the syndrome gives the
    codeword back. *)
Theorem single_error_located (chunk cw : str) (pos : nat) :
  length chunk = 26 -> binary chunk ->
  encode_hamming_31_26 chunk = Ok cw -> 1 <= pos <= 31 ->
  syndrome cw = Some 0 /\
  (forall p, In p parity_positions ->
             group_xor (flip_at cw pos) p
             = Some (negb (Nat.land pos p =? 0))) /\
  syndrome (flip_at cw pos) = Some pos /\
  flip_at (flip_at cw pos) pos = cw.
Proof.
  intros Hlen Hbin Henc Hpos.
  destruct (encode_binary chunk Hlen Hbin) as (bs & Hbs & -> & Henc').
  assert (cw = bits_str (hamming bs)) as -> by congruence.
  assert (forall p, In p parity_positions ->
            group_xor (bits_str (hamming bs)) p = Some false) as Hcw.
  { intros p Hp. rewrite group_xor_bits. by apply hamming_parity. }
  assert (forall p, In p parity_positions ->
            group_xor (flip_at (bits_str (hamming bs)) pos) p
            = Some (negb (Nat.land pos p =? 0))) as Hflip.
  { intros p Hp.
    rewrite flip_at_bits, group_xor_parity, group_parity_flip;
      [|apply length_hamming | exact Hpos | exact Hp].
    rewrite <- group_xor_parity, (Hcw p Hp). reflexivity. }
  split; [|split; [exact Hflip|split]].
  - unfold syndrome, parity_positions. cbn [foldr].
    rewrite !Hcw by solve_In. reflexivity.
  - unfold syndrome, parity_positions. cbn [foldr].
    rewrite !Hflip by solve_In.
    do 32 (destruct pos as [|pos]; [first [lia | reflexivity]|]). lia.
  - by rewrite !flip_at_bits, flip_flip_bits.
Qed.

Lemma single_error_located_witness :
  syndrome (flip_at (lit "1011010000000000000000000000000") 7) = Some 7.
Proof.
  apply (single_error_located (lit "10100000000000000000000000")
                              (lit "1011010000000000000000000000000") 7);
    first [reflexivity | lia | solve_binary].
Defined.

Lemma distance_bits xs ys :
  distance (bits_str xs) (bits_str ys) = weight (zip_with xorb xs ys).
Proof.
  unfold distance.
  revert ys; induction xs as [|x xs IH]; intros [|y ys]; try reflexivity.
  cbn. destruct x, y; cbn; by rewrite <- IH.
Qed.

Lemma weight_zero xs : forall ys,
  length xs = length ys -> weight (zip_with xorb xs ys) = 0 -> xs = ys.
Proof.
  induction xs as [|x xs IH]; intros [|y ys] Hlen Hw; try discriminate;
    [reflexivity|].
  cbn in Hw. injection Hlen as Hlen.
  destruct x, y; try discriminate; f_equal; apply IH; assumption.
Qed.

Lemma In_words d : In d (words (length d) (weight d)).
Proof.
  induction d as [|b d IH]; [by left|].
  cbn [length words]. apply in_or_app. destruct b; cbn [weight foldr Nat.b2n].
  - right. change (1 + weight d) with (S (weight d)). by apply in_map.
  - left. change (0 + weight d) with (weight d). by apply in_map.
Qed.

(** The codewords of the blocks with one or two bits set have at least
    three bits set. *)
Lemma light_words_checked :
  forallb (fun d => 3 <=? weight (hamming d)) (words 26 1 ++ words 26 2)
  = true.
Proof. vm_compute. reflexivity. Qed.

Lemma weight_hamming_ge d : length d = 26 -> weight d <= weight (hamming d).
Proof.
  intros Hlen. destruct_list d Hlen.
  cbv -[xorb weight]. unfold weight. cbn [foldr].
  generalize dependent Nat.b2n. intros f. lia.
Qed.

Lemma weight_hamming d :
  length d = 26 -> 0 < weight d -> 3 <= weight (hamming d).
Proof.
  intros Hlen Hw. destruct (le_lt_dec 3 (weight d)) as [H3|H3].
  - pose proof (weight_hamming_ge d Hlen). lia.
  - pose proof (In_words d) as Hin. rewrite Hlen in Hin.
    assert (In d (words 26 1 ++ words 26 2)) as Hin'.
    { apply in_or_app.
      destruct (weight d) as [|[|[|w]]]; [lia | by left | by right | lia]. }
    pose proof light_words_checked as Hall.
    rewrite forallb_forall in Hall. apply Hall in Hin'.
    by apply Nat.leb_le in Hin'.
Qed.

(** X11: the codewords of two different blocks of 26 bits differ in at
    least three positions. *)
Theorem codewords_distance (a b cwa cwb : str) :
  length a = 26 -> binary a -> length b = 26 -> binary b ->
  encode_hamming_31_26 a = Ok cwa -> encode_hamming_31_26 b = Ok cwb ->
  a <> b -> 3 <= distance cwa cwb.
Proof.
  intros La Ba Lb Bb Ea Eb Hne.
  destruct (encode_binary a La Ba) as (xs & Hxs & -> & Ea').
  destruct (encode_binary b Lb Bb) as (ys & Hys & -> & Eb').
  assert (cwa = bits_str (hamming xs)) as -> by congruence.
  assert (cwb = bits_str (hamming ys)) as -> by congruence.
  rewrite distance_bits, <- hamming_xor by assumption.
  apply weight_hamming.
  - rewrite length_zip_with. lia.
  - destruct (weight (zip_with xorb xs ys)) eqn:Hw; [|lia].
    exfalso. apply Hne. f_equal. apply weight_zero; [lia | exact Hw].
Qed.

Lemma codewords_distance_witness :
  3 <= distance (lit "1011010000000000000000000000000")
                (lit "0111100000000000000000000000000").
Proof.
  apply (codewords_distance (lit "10100000000000000000000000")
                            (lit "11000000000000000000000000"));
    first [reflexivity | discriminate | solve_binary].
Defined.
